(** * ResGuard: [safe::unique_resource<T>] and its factory

    A shallow embedding of [ResGuard.hpp].  Guard objects live in a store
    indexed by their address, so that [this != &other] and calls such as
    [a.swap(a)] mean what they mean in the header.  Every call of a release
    action is appended to a trace; [std::terminate] ends the run.

    Exception specifications ([noexcept(...)]) and the [static_assert] on
    [T] are compile-time annotations and have no counterpart here. *)

From stdpp Require Import gmap list.
From Stdlib Require Import ZArith.

Module safe.

(** ** Data model *)

(** The address of a guard object ([this], [&other]). *)
Definition addr := positive.

(** The address of a function.  [deleter_type] is
    [void ( * )(T&) noexcept]; [None] is [nullptr]. *)
Definition fnaddr := positive.
Definition deleter_type := option fnaddr.

(** The three data members, in declaration order. *)
Record unique_resource (T : Type) := mk_unique_resource {
  value_ : T;
  valid_ : bool;
  deleter_ : deleter_type
}.
Arguments mk_unique_resource {T} _ _ _.
Arguments value_ {T} _.
Arguments valid_ {T} _.
Arguments deleter_ {T} _.

(** The state of the process: the guard objects within their lifetime and
    the calls of release actions made so far (callee, argument at entry). *)
Record world (T : Type) := mk_world {
  objs : gmap addr (unique_resource T);
  calls : list (fnaddr * T)
}.
Arguments mk_world {T} _ _.
Arguments objs {T} _.
Arguments calls {T} _.

(** What the language leaves undefined. *)
Inductive fault :=
| null_call        (* a call through a null function pointer *)
| outside_lifetime (* a member function of an object that does not exist *)
| storage_in_use.  (* a constructor on storage that holds a live object *)

Inductive outcome (T A : Type) :=
| Returns (a : A) (w : world T)
| Terminated (w : world T)      (* std::terminate() was called *)
| Undefined (f : fault).
Arguments Returns {T A} _ _.
Arguments Terminated {T A} _.
Arguments Undefined {T A} _.

(** The trace of release calls an outcome carries, if it has one. *)
Definition calls_of {T A} (o : outcome T A) : option (list (fnaddr * T)) :=
  match o with
  | Returns _ w => Some (calls w)
  | Terminated w => Some (calls w)
  | Undefined _ => None
  end.

Definition M (T A : Type) := world T -> outcome T A.

Definition ret {T A} (a : A) : M T A := fun w => Returns a w.

Definition bind {T A B} (m : M T A) (k : A -> M T B) : M T B :=
  fun w =>
    match m w with
    | Returns a w' => k a w'
    | Terminated w' => Terminated w'
    | Undefined f => Undefined f
    end.

Notation "x <- m ;; k" := (bind m (fun x => k))
  (at level 100, m at next level, right associativity).
Notation "m ;;; k" := (bind m (fun _ => k))
  (at level 100, right associativity).

Section Guard.

Context {T : Type}.

(** What moving out of a [T] leaves behind ([std::move] followed by [T]'s
    move constructor or move assignment); the identity for scalar [T]. *)
Variable moved_from : T -> T.

(** The code behind each function address: called with a [T&], it either
    returns, leaving a value in the referenced object, or does not return
    ([None]: it ended the process). *)
Variable fn_body : fnaddr -> T -> option T.

Abbreviation guard := (unique_resource T).
Abbreviation Mu := (M T).

(** ** Access to objects and members *)

Definition terminate {A} : Mu A := fun w => Terminated w.

Definition load (p : addr) : Mu guard :=
  fun w =>
    match objs w !! p with
    | Some g => Returns g w
    | None => Undefined outside_lifetime
    end.

Definition store (p : addr) (g : guard) : Mu unit :=
  fun w =>
    match objs w !! p with
    | Some _ => Returns tt (mk_world (<[p := g]> (objs w)) (calls w))
    | None => Undefined outside_lifetime
    end.

Definition set_value (p : addr) (v : T) : Mu unit :=
  g <- load p ;; store p (mk_unique_resource v (valid_ g) (deleter_ g)).

Definition set_valid (p : addr) (b : bool) : Mu unit :=
  g <- load p ;; store p (mk_unique_resource (value_ g) b (deleter_ g)).

Definition set_deleter (p : addr) (d : deleter_type) : Mu unit :=
  g <- load p ;; store p (mk_unique_resource (value_ g) (valid_ g) d).

(** [std::move(p->value_)] consumed by a move: yields the value and leaves
    the moved-from state in the member. *)
Definition move_value (p : addr) : Mu T :=
  g <- load p ;; (set_value p (moved_from (value_ g)) ;;; ret (value_ g)).

(** [std::exchange(p->valid_, b)]. *)
Definition exchange_valid (p : addr) (b : bool) : Mu bool :=
  g <- load p ;; (set_valid p b ;;; ret (valid_ g)).

(** Start and end of an object's lifetime. *)
Definition emplace (p : addr) (g : guard) : Mu unit :=
  fun w =>
    match objs w !! p with
    | Some _ => Undefined storage_in_use
    | None => Returns tt (mk_world (<[p := g]> (objs w)) (calls w))
    end.

Definition end_lifetime (p : addr) : Mu unit :=
  fun w => Returns tt (mk_world (delete p (objs w)) (calls w)).

(** [d(p->value_)]: the call is recorded, then the callee runs on the
    member by reference. *)
Definition record_call (f : fnaddr) (v : T) : Mu unit :=
  fun w => Returns tt (mk_world (objs w) (calls w ++ [(f, v)])).

Definition invoke (d : deleter_type) (p : addr) : Mu unit :=
  match d with
  | None => fun _ => Undefined null_call
  | Some f =>
      g <- load p ;;
      record_call f (value_ g) ;;;
      match fn_body f (value_ g) with
      | Some v' => set_value p v'
      | None => terminate
      end
  end.

(** ** Member functions *)

(** [void release() noexcept] *)
Definition release (this : addr) : Mu unit :=
  g <- load this ;;
  if valid_ g && bool_decide (deleter_ g <> None)
  then invoke (deleter_ g) this ;;; set_valid this false
  else ret tt.

(** [unique_resource(U&& res, deleter_type d)] *)
Definition unique_resource_ctor (this : addr) (res : T) (d : deleter_type)
  : Mu unit :=
  emplace this (mk_unique_resource res true d) ;;;
  if bool_decide (d = None) then terminate else ret tt.

(** [~unique_resource()] *)
Definition unique_resource_dtor (this : addr) : Mu unit :=
  release this ;;; end_lifetime this.

(** [unique_resource(unique_resource&& other)] *)
Definition unique_resource_move_ctor (this other : addr) : Mu unit :=
  v <- move_value other ;;
  b <- exchange_valid other false ;;
  o <- load other ;;
  emplace this (mk_unique_resource v b (deleter_ o)).

(** [unique_resource& operator=(unique_resource&& other)] *)
Definition operator_assign (this other : addr) : Mu unit :=
  if bool_decide (this <> other)
  then
    release this ;;;
    v <- move_value other ;;
    set_value this v ;;;
    b <- exchange_valid other false ;;
    set_valid this b ;;;
    o <- load other ;;
    set_deleter this (deleter_ o)
  else ret tt.

(** [T& get()] and [const T& get() const]: the referenced value. *)
Definition get (this : addr) : Mu T :=
  g <- load this ;; ret (value_ g).

(** [explicit operator bool() const] *)
Definition operator_bool (this : addr) : Mu bool :=
  g <- load this ;; ret (valid_ g).

(** [void reset()] *)
Definition reset (this : addr) : Mu unit := release this.

(** [T release_ownership()] *)
Definition release_ownership (this : addr) : Mu T :=
  set_valid this false ;;; move_value this.

(** [std::swap] on the [T] members: three moves through a temporary. *)
Definition swap_value (p q : addr) : Mu unit :=
  tmp <- move_value p ;;
  v <- move_value q ;;
  set_value p v ;;;
  set_value q tmp.

(** [std::swap] on the [bool] and pointer members. *)
Definition swap_valid (p q : addr) : Mu unit :=
  a <- load p ;; b <- load q ;;
  set_valid p (valid_ b) ;;; set_valid q (valid_ a).

Definition swap_deleter (p q : addr) : Mu unit :=
  a <- load p ;; b <- load q ;;
  set_deleter p (deleter_ b) ;;; set_deleter q (deleter_ a).

(** [void swap(unique_resource& other)] *)
Definition member_swap (this other : addr) : Mu unit :=
  swap_value this other ;;;
  swap_valid this other ;;;
  swap_deleter this other.

(** [void swap(unique_resource<T>& a, unique_resource<T>& b)] *)
Definition swap (a b : addr) : Mu unit := member_swap a b.

(** ** The factory *)

(** A release callable of arbitrary shape, called on a [T&]: it returns,
    leaving a value in the referenced object, or it throws. *)
Inductive completion :=
| returned (v : T)
| thrown.

Definition callable := T -> completion.

(** The body of the lambda in [make_unique_resource]:
    [try { deleter(v); } catch (...) { std::terminate(); }]. *)
Definition adapter_body (deleter : callable) (v : T) : option T :=
  match deleter v with
  | returned v' => Some v'
  | thrown => None
  end.

(** [make_unique_resource(res, deleter)].  The lambda has an empty capture
    list and is converted by unary [+] to [deleter_fn], a plain function
    pointer: [fn] is the address of that one function, and the guard is
    built from [res] and [fn].  What runs behind [fn] is [fn_body fn], as
    for every other function address; the pointer carries no [deleter]. *)
Definition make_unique_resource (fn : fnaddr) (this : addr) (res : T)
    (deleter : callable) : Mu unit :=
  unique_resource_ctor this res (Some fn).

(** ** Programs over guards *)

(** The operations a caller has on guards, by the address of the objects
    they act on. *)
Inductive op :=
| Construct (this : addr) (res : T) (d : deleter_type)
| MoveConstruct (this other : addr)
| MoveAssign (this other : addr)
| Get (this : addr)
| Bool (this : addr)
| Reset (this : addr)
| ReleaseOwnership (this : addr)
| MemberSwap (this other : addr)
| Swap (a b : addr)
| Destroy (this : addr).

Definition exec (o : op) : Mu unit :=
  match o with
  | Construct this res d => unique_resource_ctor this res d
  | MoveConstruct this other => unique_resource_move_ctor this other
  | MoveAssign this other => operator_assign this other
  | Get this => get this ;;; ret tt
  | Bool this => operator_bool this ;;; ret tt
  | Reset this => reset this
  | ReleaseOwnership this => release_ownership this ;;; ret tt
  | MemberSwap this other => member_swap this other
  | Swap a b => swap a b
  | Destroy this => unique_resource_dtor this
  end.

Fixpoint run (prog : list op) : Mu unit :=
  match prog with
  | [] => ret tt
  | o :: prog' => exec o ;;; run prog'
  end.

(** The operations on the guard at [p] that neither hand it another
    resource nor end its lifetime. *)
Definition own_op (p : addr) (o : op) : bool :=
  match o with
  | Get q | Bool q | Reset q | ReleaseOwnership q => bool_decide (q = p)
  | _ => false
  end.

(** Every guard within its lifetime stores a non-null releaser. *)
Definition deleters_set (w : world T) : Prop :=
  forall p g, objs w !! p = Some g -> deleter_ g <> None.

End Guard.

(** A computation keeps a property of the process whenever it returns. *)
Definition preserves {T A} (I : world T -> Prop) (m : M T A) : Prop :=
  forall w, I w ->
    match m w with
    | Returns _ w' => I w'
    | _ => True
    end.

(** A computation never calls through a null function pointer. *)
Definition never_null_call {T A} (m : M T A) : Prop :=
  forall w, m w <> Undefined null_call.

(** The process before any guard exists. *)
Definition start {T} : world T := mk_world ∅ [].

(** The code table in which the function at [fn] has the body [body]. *)
Definition with_body {T} (fn_body : fnaddr -> T -> option T) (fn : fnaddr)
    (body : T -> option T) : fnaddr -> T -> option T :=
  fun f => if bool_decide (f = fn) then body else fn_body f.

(** ** Integer handles

    Guards over [Z] handles, whose moved-from state is the handle itself.
    The function at address 1 returns and leaves the handle as it is, the
    function at address 2 overwrites it with -1 (as a closing function
    does), and any other function does not return. *)
Definition handle_moved_from (h : Z) : Z := h.

Definition handle_fn_body (f : fnaddr) (h : Z) : option Z :=
  match f with
  | 1%positive => Some h
  | 2%positive => Some (-1)%Z
  | _ => None
  end.

(** One live guard at address 1, nothing released yet. *)
Definition one_guard (h : Z) (b : bool) (d : deleter_type) : world Z :=
  mk_world {[ 1%positive := mk_unique_resource h b d ]} [].

(** Two live guards at addresses 1 and 2. *)
Definition two_guards (g1 g2 : unique_resource Z) : world Z :=
  mk_world (<[ 2%positive := g2 ]> {[ 1%positive := g1 ]}) [].

(** ** Accounting for resources *)

(** The number of live guards that own a resource ([valid_] is [true]). *)
Definition valid_count {T} (m : gmap addr (unique_resource T)) : nat :=
  size (filter (fun kv => valid_ kv.2 = true) m).

(** Resources accounted for: owned by a live guard, or released by a call. *)
Definition accounted {T} (w : world T) : nat :=
  valid_count (objs w) + length (calls w).

(** What one stored guard contributes to [valid_count]. *)
Definition owns {T} (o : option (unique_resource T)) : nat :=
  match o with
  | Some g => if valid_ g then 1 else 0
  | None => 0
  end.

(** The releaser [release()] is about to call on a guard, if any: the test
    [valid_ && deleter_]. *)
Definition due {T} (g : unique_resource T) : deleter_type :=
  if valid_ g then deleter_ g else None.

Definition is_construct {T} (o : op (T:=T)) : bool :=
  match o with Construct _ _ _ => true | _ => false end.

Definition is_release_ownership {T} (o : op (T:=T)) : bool :=
  match o with ReleaseOwnership _ => true | _ => false end.

(** The constructor calls a program makes. *)
Definition constructions {T} (prog : list (op (T:=T))) : nat :=
  length (List.filter is_construct prog).

(** The objects an operation is called on. *)
Definition touches {T} (o : op (T:=T)) : list addr :=
  match o with
  | Construct this _ _ | Get this | Bool this | Reset this
  | ReleaseOwnership this | Destroy this => [this]
  | MoveConstruct this other | MoveAssign this other
  | MemberSwap this other => [this; other]
  | Swap a b => [a; b]
  end.

(** A computation leaves the object at [r] as it is (there or not),
    whether it returns or ends in [std::terminate()]. *)
Definition frames {T A} (r : addr) (m : M T A) : Prop :=
  forall w,
    match m w with
    | Returns _ w' | Terminated w' => objs w' !! r = objs w !! r
    | Undefined _ => True
    end.

(** ** Reasoning about runs *)

Ltac unfold_ops :=
  unfold make_unique_resource, unique_resource_dtor, unique_resource_move_ctor,
    unique_resource_ctor, operator_assign, reset, release, release_ownership,
    swap, member_swap, swap_value, swap_valid, swap_deleter, get,
    operator_bool, invoke, record_call, move_value, exchange_valid,
    set_value, set_valid, set_deleter, emplace, end_lifetime, store, load,
    terminate, bind, ret.

Ltac lookups :=
  repeat first
    [ progress simpl
    | rewrite lookup_insert_eq
    | rewrite lookup_insert_ne by congruence
    | match goal with H : objs _ !! _ = _ |- _ => rewrite H end
    | match goal with H : valid_ _ = _ |- _ => rewrite H end
    | match goal with H : deleter_ _ = _ |- _ => rewrite H end ].

Ltac same_world :=
  f_equal; try (f_equal; apply map_eq; intros ?;
    repeat (rewrite lookup_insert || rewrite lookup_delete);
    repeat case_decide;
    simplify_eq; try done).

Section Facts.

Context {T : Type}.
Variable moved_from : T -> T.
Variable fn_body : fnaddr -> T -> option T.

Implicit Types (w : world T) (g : unique_resource T) (p q : addr).
Implicit Types (R : fnaddr) (prog : list (op (T:=T))).

(** *** Destruction, case by case *)

Lemma dtor_valid w p g R :
  objs w !! p = Some g -> valid_ g = true -> deleter_ g = Some R ->
  unique_resource_dtor fn_body p w =
  match fn_body R (value_ g) with
  | Some _ =>
      Returns tt (mk_world (delete p (objs w)) (calls w ++ [(R, value_ g)]))
  | None => Terminated (mk_world (objs w) (calls w ++ [(R, value_ g)]))
  end.
Proof.
  intros Hp Hv Hd. unfold_ops. lookups.
  destruct (fn_body R (value_ g)); lookups; [|done]. same_world.
Qed.

Lemma dtor_invalid w p g :
  objs w !! p = Some g -> valid_ g = false ->
  unique_resource_dtor fn_body p w =
  Returns tt (mk_world (delete p (objs w)) (calls w)).
Proof. intros Hp Hv. unfold_ops. lookups. done. Qed.

Lemma dtor_calls_valid w p g R :
  objs w !! p = Some g -> valid_ g = true -> deleter_ g = Some R ->
  calls_of (unique_resource_dtor fn_body p w) =
  Some (calls w ++ [(R, value_ g)]).
Proof.
  intros Hp Hv Hd. rewrite (dtor_valid w p g R) by done.
  by destruct (fn_body R (value_ g)).
Qed.

Lemma release_valid w p g R :
  objs w !! p = Some g -> valid_ g = true -> deleter_ g = Some R ->
  release fn_body p w =
  match fn_body R (value_ g) with
  | Some v' =>
      Returns tt (mk_world (<[p := mk_unique_resource v' false (Some R)]> (objs w))
                           (calls w ++ [(R, value_ g)]))
  | None => Terminated (mk_world (objs w) (calls w ++ [(R, value_ g)]))
  end.
Proof.
  intros Hp Hv Hd. unfold_ops. lookups.
  destruct (fn_body R (value_ g)); lookups; [|done]. same_world.
Qed.

Lemma release_invalid w p g :
  objs w !! p = Some g -> valid_ g = false -> release fn_body p w = Returns tt w.
Proof. intros Hp Hv. unfold_ops. lookups. done. Qed.

Lemma release_ownership_eq w p g :
  objs w !! p = Some g ->
  release_ownership moved_from p w =
  Returns (value_ g)
    (mk_world
       (<[p := mk_unique_resource (moved_from (value_ g)) false (deleter_ g)]>
          (objs w))
       (calls w)).
Proof. intros Hp. unfold_ops. lookups. same_world. Qed.

(** *** Release happens at most once *)

(** One step of a guard's own operations: the guard stays where it is with
    its releaser; the trace is unchanged, or the guard was valid and the
    trace grew by the one call on its value. *)
Lemma own_op_step w p g R o :
  objs w !! p = Some g -> deleter_ g = Some R -> own_op p o = true ->
  (exists g1 w1,
      exec moved_from fn_body o w = Returns tt w1 /\
      objs w1 !! p = Some g1 /\ deleter_ g1 = Some R /\
      ((calls w1 = calls w /\ (valid_ g1 = false \/ g1 = g)) \/
       (valid_ g = true /\ valid_ g1 = false /\
        calls w1 = calls w ++ [(R, value_ g)]))) \/
  (exists w1,
      exec moved_from fn_body o w = Terminated w1 /\
      valid_ g = true /\ calls w1 = calls w ++ [(R, value_ g)]).
Proof.
  intros Hp Hd Ho.
  destruct o; simpl in Ho; try discriminate;
    apply bool_decide_eq_true_1 in Ho; subst this; simpl.
  - (* get *)
    left. exists g, w. unfold_ops. lookups. naive_solver.
  - (* operator bool *)
    left. exists g, w. unfold_ops. lookups. naive_solver.
  - (* reset *)
    unfold reset. destruct (valid_ g) eqn:Hv.
    + rewrite (release_valid w p g R) by done.
      destruct (fn_body R (value_ g)) as [v'|].
      * left. exists (mk_unique_resource v' false (Some R)).
        eexists. split; [done|]. simpl. rewrite lookup_insert_eq.
        naive_solver.
      * right. eexists. split; [done|]. done.
    + rewrite (release_invalid w p g) by done.
      left. exists g, w. naive_solver.
  - (* release_ownership *)
    left. unfold bind. rewrite (release_ownership_eq w p g) by done.
    exists (mk_unique_resource (moved_from (value_ g)) false (deleter_ g)).
    eexists. split; [done|]. simpl. rewrite lookup_insert_eq.
    naive_solver.
Qed.

Lemma own_ops_then_destroy p R prog :
  forall w g,
    objs w !! p = Some g -> deleter_ g = Some R ->
    forallb (own_op p) prog = true ->
    exists tr,
      calls_of (run moved_from fn_body (prog ++ [Destroy p]) w) =
        Some (calls w ++ tr) /\
      (tr = [] \/ (valid_ g = true /\ tr = [(R, value_ g)])).
Proof.
  induction prog as [|o prog IH]; intros w g Hp Hd Hall; simpl.
  - unfold bind. destruct (valid_ g) eqn:Hv.
    + exists [(R, value_ g)]. rewrite (dtor_valid w p g R) by done.
      split; [|by right]. by destruct (fn_body R (value_ g)).
    + exists []. rewrite (dtor_invalid w p g) by done.
      simpl. by rewrite app_nil_r; split; [|left].
  - simpl in Hall. apply andb_true_iff in Hall as [Ho Hall].
    unfold bind at 1.
    destruct (own_op_step w p g R o Hp Hd Ho)
      as [(g1 & w1 & -> & Hp1 & Hd1 & Hcase) | (w1 & -> & Hv & Hc)].
    + destruct (IH w1 g1 Hp1 Hd1 Hall) as (tr & -> & Htr).
      destruct Hcase as [[Hc [Hv1 | ->]] | (Hv & Hv1 & Hc)].
      * exists tr. rewrite Hc. split; [done|]. left.
        destruct Htr as [? | [? ?]]; [done | congruence].
      * exists tr. by rewrite Hc.
      * exists [(R, value_ g)]. rewrite Hc.
        destruct Htr as [-> | [? ?]]; [|congruence].
        rewrite app_nil_r. split; [done | by right].
    + exists [(R, value_ g)]. simpl. rewrite Hc. split; [done | by right].
Qed.

(** C1.  A guard at [p] built with releaser [R]: destroying it while valid
    makes exactly one call, of [R] on the held value; destroying it while
    invalid makes none; after a [reset()] that returned, a second [reset()]
    changes nothing and destruction makes no further call; and over any
    sequence of the guard's own operations ([get], [operator bool],
    [reset], [release_ownership]) followed by its destruction, at most one
    call is made, and it is the call of [R] on the held value. *)
Theorem release_at_most_once w p g R :
  objs w !! p = Some g -> deleter_ g = Some R ->
  (valid_ g = true ->
     calls_of (unique_resource_dtor fn_body p w) =
       Some (calls w ++ [(R, value_ g)])) /\
  (valid_ g = false ->
     unique_resource_dtor fn_body p w =
       Returns tt (mk_world (delete p (objs w)) (calls w))) /\
  (forall w1, reset fn_body p w = Returns tt w1 ->
     reset fn_body p w1 = Returns tt w1 /\
     unique_resource_dtor fn_body p w1 =
       Returns tt (mk_world (delete p (objs w1)) (calls w1))) /\
  (forall prog, forallb (own_op p) prog = true ->
     exists tr,
       calls_of (run moved_from fn_body (prog ++ [Destroy p]) w) =
         Some (calls w ++ tr) /\
       (tr = [] \/ (valid_ g = true /\ tr = [(R, value_ g)]))).
Proof.
  intros Hp Hd. split; [|split; [|split]].
  - intros Hv. by apply dtor_calls_valid.
  - intros Hv. by apply (dtor_invalid w p g).
  - intros w1 Hreset. unfold reset in *.
    assert (exists g1, objs w1 !! p = Some g1 /\ valid_ g1 = false)
      as (g1 & Hp1 & Hv1).
    { destruct (valid_ g) eqn:Hv.
      - rewrite (release_valid w p g R) in Hreset by done.
        destruct (fn_body R (value_ g)) as [v'|]; [|done].
        injection Hreset as <-.
        exists (mk_unique_resource v' false (Some R)).
        simpl. by rewrite lookup_insert_eq.
      - rewrite (release_invalid w p g) in Hreset by done.
        injection Hreset as <-. by exists g. }
    split; [by apply (release_invalid w1 p g1) | by apply (dtor_invalid w1 p g1)].
  - intros prog Hall. by apply own_ops_then_destroy.
Qed.

(** *** Construction and moves *)

(** C4.  On free storage, construction with a null releaser ends in
    [std::terminate()] (it neither returns nor is undefined), and
    construction with a releaser [f] returns with a valid guard that holds
    the value and records [f]. *)
Theorem ctor_null_terminates w p (res : T) :
  objs w !! p = None ->
  unique_resource_ctor p res None w =
    Terminated (mk_world (<[p := mk_unique_resource res true None]> (objs w))
                         (calls w)) /\
  (forall f,
     unique_resource_ctor p res (Some f) w =
       Returns tt
         (mk_world (<[p := mk_unique_resource res true (Some f)]> (objs w))
                   (calls w))).
Proof. intros Hp. split; [|intros f]; unfold_ops; by lookups. Qed.

(** C2.  Move-constructing a guard at free storage [p] from a valid guard
    at [q] returns; afterwards the source converts to [false], the new
    guard converts to [true], holds the source's former value and its
    releaser, and destroying the source returns without any call. *)
Theorem move_ctor_transfers w p q g1 :
  objs w !! q = Some g1 -> valid_ g1 = true -> objs w !! p = None ->
  let w' :=
    mk_world
      (<[p := mk_unique_resource (value_ g1) true (deleter_ g1)]>
         (<[q := mk_unique_resource (moved_from (value_ g1)) false (deleter_ g1)]>
            (objs w)))
      (calls w) in
  unique_resource_move_ctor moved_from p q w = Returns tt w' /\
  operator_bool q w' = Returns false w' /\
  operator_bool p w' = Returns true w' /\
  get p w' = Returns (value_ g1) w' /\
  objs w' !! p = Some (mk_unique_resource (value_ g1) true (deleter_ g1)) /\
  unique_resource_dtor fn_body q w' =
    Returns tt (mk_world (delete q (objs w')) (calls w)).
Proof.
  intros Hq Hv Hp w'.
  assert (p <> q) as Hne by congruence.
  assert (objs w' !! q =
          Some (mk_unique_resource (moved_from (value_ g1)) false (deleter_ g1)))
    as Hq' by (subst w'; by lookups).
  assert (objs w' !! p = Some (mk_unique_resource (value_ g1) true (deleter_ g1)))
    as Hp' by (subst w'; by lookups).
  split; [|split; [|split; [|split; [|split]]]].
  - clear Hq' Hp'. subst w'. unfold_ops. lookups. same_world.
  - unfold_ops. by rewrite Hq'.
  - unfold_ops. by rewrite Hp'.
  - unfold_ops. by rewrite Hp'.
  - done.
  - by rewrite (dtor_invalid w' q _ Hq').
Qed.

(** C3.  Move-assigning to a valid guard at [p], whose releaser is [R2],
    from a distinct guard at [q]: the one call made is that of [R2] on the
    destination's original value.  When it returns, the destination holds
    the source's value, validity and releaser and the source is invalid;
    when it does not, nothing has been absorbed. *)
Theorem move_assign_releases_first w p q g1 g2 R2 :
  p <> q -> objs w !! p = Some g2 -> objs w !! q = Some g1 ->
  valid_ g2 = true -> deleter_ g2 = Some R2 ->
  operator_assign moved_from fn_body p q w =
    match fn_body R2 (value_ g2) with
    | Some _ =>
        Returns tt
          (mk_world
             (<[q := mk_unique_resource (moved_from (value_ g1)) false (deleter_ g1)]>
                (<[p := mk_unique_resource (value_ g1) (valid_ g1) (deleter_ g1)]>
                   (objs w)))
             (calls w ++ [(R2, value_ g2)]))
    | None => Terminated (mk_world (objs w) (calls w ++ [(R2, value_ g2)]))
    end /\
  calls_of (operator_assign moved_from fn_body p q w) =
    Some (calls w ++ [(R2, value_ g2)]).
Proof.
  intros Hne Hp Hq Hv Hd.
  assert (operator_assign moved_from fn_body p q w =
    match fn_body R2 (value_ g2) with
    | Some _ =>
        Returns tt
          (mk_world
             (<[q := mk_unique_resource (moved_from (value_ g1)) false (deleter_ g1)]>
                (<[p := mk_unique_resource (value_ g1) (valid_ g1) (deleter_ g1)]>
                   (objs w)))
             (calls w ++ [(R2, value_ g2)]))
    | None => Terminated (mk_world (objs w) (calls w ++ [(R2, value_ g2)]))
    end) as Heq.
  { unfold_ops. rewrite bool_decide_eq_true_2 by done. lookups.
    destruct (fn_body R2 (value_ g2)) as [v'|]; lookups; [|done].
    same_world. }
  split; [done|]. rewrite Heq. by destruct (fn_body R2 (value_ g2)).
Qed.

(** C8.  Self-move-assignment returns at once: the guard's validity, value
    and releaser, every other object and the trace are as before. *)
Theorem self_move_assign_noop w p :
  operator_assign moved_from fn_body p p w = Returns tt w.
Proof.
  unfold operator_assign. by rewrite bool_decide_eq_false_2 by naive_solver.
Qed.

(** *** Handing the value back *)

(** C6.  [release_ownership()] on any guard returns the held value, leaves
    the guard invalid with the moved-from value, makes no call, and the
    guard's destruction afterwards returns without any call. *)
Theorem release_ownership_disarms w p g :
  objs w !! p = Some g ->
  let w' :=
    mk_world
      (<[p := mk_unique_resource (moved_from (value_ g)) false (deleter_ g)]>
         (objs w))
      (calls w) in
  release_ownership moved_from p w = Returns (value_ g) w' /\
  operator_bool p w' = Returns false w' /\
  unique_resource_dtor fn_body p w' =
    Returns tt (mk_world (delete p (objs w')) (calls w)).
Proof.
  intros Hp w'.
  assert (objs w' !! p =
          Some (mk_unique_resource (moved_from (value_ g)) false (deleter_ g)))
    as Hp' by (subst w'; by lookups).
  split; [by apply release_ownership_eq|]. split.
  - unfold_ops. by rewrite Hp'.
  - by rewrite (dtor_invalid w' p _ Hp').
Qed.

(** C10.  [release_ownership()] on a guard that is already invalid returns
    (it neither terminates nor is undefined), returns the payload the guard
    holds, adds nothing to the trace, and leaves the guard invalid with its
    releaser as it was. *)
Theorem release_ownership_invalid w p g :
  objs w !! p = Some g -> valid_ g = false ->
  exists w',
    release_ownership moved_from p w = Returns (value_ g) w' /\
    calls w' = calls w /\
    objs w' !! p =
      Some (mk_unique_resource (moved_from (value_ g)) false (deleter_ g)) /\
    operator_bool p w' = Returns false w' /\
    (forall q, q <> p -> objs w' !! q = objs w !! q).
Proof.
  intros Hp Hv. eexists. split; [by apply release_ownership_eq|].
  simpl. split; [done|]. split; [by rewrite lookup_insert_eq|]. split.
  - unfold_ops. simpl. by rewrite lookup_insert_eq.
  - intros q Hq. by rewrite lookup_insert_ne.
Qed.

(** *** Swap *)

Lemma member_swap_eq w a b ga gb :
  objs w !! a = Some ga -> objs w !! b = Some gb ->
  member_swap moved_from a b w =
    Returns tt (mk_world (<[b := ga]> (<[a := gb]> (objs w))) (calls w)).
Proof.
  intros Ha Hb. destruct ga as [va ba da], gb as [vb bb db].
  destruct (decide (a = b)) as [->|Hne].
  - rewrite Ha in Hb. injection Hb as <- <- <-.
    unfold_ops. lookups. same_world.
  - unfold_ops. lookups. same_world.
Qed.

(** C7 (as amended).  [swap], as a member or as the free function, returns
    with the two guards' values, validities and releasers exchanged and with
    nothing called.  Destroying a guard afterwards makes exactly one call,
    of the releaser it holds after the swap on the value it holds after the
    swap, when it is valid after the swap; it makes no call when it is
    invalid after the swap. *)
Theorem swap_exchanges w a b ga gb :
  objs w !! a = Some ga -> objs w !! b = Some gb ->
  let w' := mk_world (<[b := ga]> (<[a := gb]> (objs w))) (calls w) in
  member_swap moved_from a b w = Returns tt w' /\
  swap moved_from a b w = Returns tt w' /\
  objs w' !! a = Some gb /\
  objs w' !! b = Some ga /\
  (forall R, valid_ gb = true -> deleter_ gb = Some R ->
     calls_of (unique_resource_dtor fn_body a w') =
       Some (calls w ++ [(R, value_ gb)])) /\
  (valid_ gb = false ->
     unique_resource_dtor fn_body a w' =
       Returns tt (mk_world (delete a (objs w')) (calls w))) /\
  (forall R, valid_ ga = true -> deleter_ ga = Some R ->
     calls_of (unique_resource_dtor fn_body b w') =
       Some (calls w ++ [(R, value_ ga)])) /\
  (valid_ ga = false ->
     unique_resource_dtor fn_body b w' =
       Returns tt (mk_world (delete b (objs w')) (calls w))).
Proof.
  intros Ha Hb w'.
  assert (objs w' !! b = Some ga) as Hb' by (subst w'; by lookups).
  assert (objs w' !! a = Some gb) as Ha'.
  { subst w'. simpl. destruct (decide (a = b)) as [->|Hne].
    - rewrite lookup_insert_eq. congruence.
    - rewrite lookup_insert_ne by done. by rewrite lookup_insert_eq. }
  split; [by apply member_swap_eq|].
  split; [by apply member_swap_eq|].
  split; [done|]. split; [done|].
  split; [|split; [|split]].
  - intros R Hv Hd. by rewrite (dtor_calls_valid w' a gb R).
  - intros Hv. by rewrite (dtor_invalid w' a gb).
  - intros R Hv Hd. by rewrite (dtor_calls_valid w' b ga R).
  - intros Hv. by rewrite (dtor_invalid w' b ga).
Qed.

(** *** The stored releaser is never null *)

Abbreviation keeps := (preserves (deleters_set (T:=T))).

Lemma keeps_ret {A} (a : A) : keeps (ret a).
Proof. by intros w Hw. Qed.

Lemma keeps_terminate {A} : keeps (terminate (A:=A)).
Proof. by intros w Hw. Qed.

Lemma keeps_bind {A B} (m : M T A) (k : A -> M T B) :
  keeps m -> (forall a, keeps (k a)) -> keeps (bind m k).
Proof.
  intros Hm Hk w Hw. unfold bind. specialize (Hm w Hw).
  destruct (m w) as [a w1| |]; [|done..]. by apply Hk.
Qed.

(** What [load] yields has a releaser, which the continuation may use. *)
Lemma keeps_load_bind {B} p (k : unique_resource T -> M T B) :
  (forall g, deleter_ g <> None -> keeps (k g)) -> keeps (bind (load p) k).
Proof.
  intros Hk w Hw. unfold bind, load.
  destruct (objs w !! p) as [g|] eqn:Hp; [|done].
  apply Hk; [by apply (Hw p)|done].
Qed.

Lemma deleters_set_insert w p g :
  deleters_set w -> deleter_ g <> None ->
  deleters_set (mk_world (<[p := g]> (objs w)) (calls w)).
Proof.
  intros Hw Hg q g'. simpl. rewrite lookup_insert.
  case_decide; [naive_solver | apply Hw].
Qed.

Lemma keeps_store p g : deleter_ g <> None -> keeps (store p g).
Proof.
  intros Hg w Hw. unfold store. destruct (objs w !! p); [|done].
  by apply deleters_set_insert.
Qed.

Lemma keeps_emplace p g : deleter_ g <> None -> keeps (emplace p g).
Proof.
  intros Hg w Hw. unfold emplace. destruct (objs w !! p); [done|].
  by apply deleters_set_insert.
Qed.

Lemma keeps_end_lifetime p : keeps (end_lifetime p).
Proof.
  intros w Hw q g. simpl. rewrite lookup_delete.
  case_decide; [done | apply Hw].
Qed.

Lemma keeps_record_call f (v : T) : keeps (record_call f v).
Proof. intros w Hw. exact Hw. Qed.

Lemma keeps_set_value p (v : T) : keeps (set_value p v).
Proof. apply keeps_load_bind. intros g Hg. by apply keeps_store. Qed.

Lemma keeps_set_valid p b : keeps (set_valid (T:=T) p b).
Proof. apply keeps_load_bind. intros g Hg. by apply keeps_store. Qed.

Lemma keeps_set_deleter p d : d <> None -> keeps (set_deleter (T:=T) p d).
Proof. intros Hd. apply keeps_load_bind. intros g Hg. by apply keeps_store. Qed.

Create HintDb keeps discriminated.
#[local] Hint Resolve keeps_ret keeps_terminate keeps_store keeps_emplace
  keeps_end_lifetime keeps_record_call keeps_set_value keeps_set_valid
  keeps_set_deleter : keeps.

Ltac keeps_steps :=
  repeat first
    [ solve [eauto with keeps]
    | solve [apply keeps_emplace; simpl; assumption]
    | apply keeps_load_bind; intros ? ?
    | apply keeps_bind; [|intros ?] ].

Lemma keeps_move_value p : keeps (move_value moved_from p).
Proof. unfold move_value. keeps_steps. Qed.

Lemma keeps_exchange_valid p b : keeps (exchange_valid (T:=T) p b).
Proof. unfold exchange_valid. keeps_steps. Qed.

Lemma keeps_invoke d p : keeps (invoke fn_body d p).
Proof.
  destruct d as [f|]; simpl; [|by intros w Hw].
  apply keeps_load_bind; intros g Hg. apply keeps_bind; [eauto with keeps|].
  intros _. destruct (fn_body f (value_ g)); eauto with keeps.
Qed.

#[local] Hint Resolve keeps_move_value keeps_exchange_valid keeps_invoke : keeps.

Lemma keeps_release p : keeps (release fn_body p).
Proof.
  unfold release. apply keeps_load_bind; intros g Hg.
  destruct (valid_ g && bool_decide (deleter_ g <> None)); keeps_steps.
Qed.

#[local] Hint Resolve keeps_release : keeps.

(** A construction that returns has checked its releaser. *)
Lemma keeps_ctor p (res : T) d : keeps (unique_resource_ctor p res d).
Proof.
  unfold unique_resource_ctor. destruct d as [f|].
  - rewrite bool_decide_eq_false_2 by done. keeps_steps.
  - intros w Hw. unfold bind, emplace, terminate.
    by destruct (objs w !! p).
Qed.

Lemma keeps_exec o : keeps (exec moved_from fn_body o).
Proof.
  destruct o; simpl.
  - apply keeps_ctor.
  - unfold unique_resource_move_ctor.
    apply keeps_bind; [eauto with keeps|]; intros v.
    apply keeps_bind; [eauto with keeps|]; intros b.
    keeps_steps.
  - unfold operator_assign. case_bool_decide; [|eauto with keeps].
    apply keeps_bind; [eauto with keeps|]; intros _.
    apply keeps_bind; [eauto with keeps|]; intros v.
    apply keeps_bind; [eauto with keeps|]; intros _.
    apply keeps_bind; [eauto with keeps|]; intros b.
    keeps_steps.
  - unfold get. keeps_steps.
  - unfold operator_bool. keeps_steps.
  - unfold reset. eauto with keeps.
  - unfold release_ownership. keeps_steps.
  - unfold member_swap, swap_value, swap_valid, swap_deleter. keeps_steps.
  - unfold swap, member_swap, swap_value, swap_valid, swap_deleter.
    keeps_steps.
  - unfold unique_resource_dtor. keeps_steps.
Qed.

Lemma keeps_run prog : keeps (run moved_from fn_body prog).
Proof.
  induction prog as [|o prog IH]; simpl; [apply keeps_ret|].
  apply keeps_bind; [apply keeps_exec | done].
Qed.

Lemma deleters_set_start : deleters_set (start (T:=T)).
Proof. intros p g. unfold start. simpl. by rewrite lookup_empty. Qed.

Lemma nn_ret {A} (a : A) : never_null_call (ret (T:=T) a).
Proof. by intros w. Qed.

Lemma nn_terminate {A} : never_null_call (terminate (T:=T) (A:=A)).
Proof. by intros w. Qed.

Lemma nn_bind {A B} (m : M T A) (k : A -> M T B) :
  never_null_call m -> (forall a, never_null_call (k a)) ->
  never_null_call (bind m k).
Proof.
  intros Hm Hk w. unfold bind. specialize (Hm w).
  destruct (m w) as [a w1| |f]; [apply Hk | done |].
  intros [= ->]. by apply Hm.
Qed.

Lemma nn_load p : never_null_call (load (T:=T) p).
Proof. intros w. unfold load. by destruct (objs w !! p). Qed.

Lemma nn_store p g : never_null_call (store p g).
Proof. intros w. unfold store. by destruct (objs w !! p). Qed.

Lemma nn_emplace p g : never_null_call (emplace p g).
Proof. intros w. unfold emplace. by destruct (objs w !! p). Qed.

Lemma nn_end_lifetime p : never_null_call (end_lifetime (T:=T) p).
Proof. by intros w. Qed.

Lemma nn_record_call f (v : T) : never_null_call (record_call f v).
Proof. by intros w. Qed.

Create HintDb nn discriminated.
#[local] Hint Resolve nn_ret nn_terminate nn_load nn_store nn_emplace
  nn_end_lifetime nn_record_call : nn.

Ltac nn_steps :=
  repeat first [ solve [eauto with nn] | apply nn_bind; [|intros ?] ].

Lemma nn_set_value p (v : T) : never_null_call (set_value p v).
Proof. unfold set_value. nn_steps. Qed.

Lemma nn_set_valid p b : never_null_call (set_valid (T:=T) p b).
Proof. unfold set_valid. nn_steps. Qed.

Lemma nn_set_deleter p d : never_null_call (set_deleter (T:=T) p d).
Proof. unfold set_deleter. nn_steps. Qed.

#[local] Hint Resolve nn_set_value nn_set_valid nn_set_deleter : nn.

Lemma nn_move_value p : never_null_call (move_value moved_from p).
Proof. unfold move_value. nn_steps. Qed.

Lemma nn_exchange_valid p b : never_null_call (exchange_valid (T:=T) p b).
Proof. unfold exchange_valid. nn_steps. Qed.

#[local] Hint Resolve nn_move_value nn_exchange_valid : nn.

(** [release] calls through [deleter_] only behind its own null test. *)
Lemma nn_release p : never_null_call (release fn_body p).
Proof.
  unfold release. apply nn_bind; [eauto with nn|]. intros g.
  destruct (deleter_ g) as [f|].
  - destruct (valid_ g && _); [|eauto with nn]. simpl.
    apply nn_bind; [|eauto with nn]. apply nn_bind; [eauto with nn|].
    intros g'. apply nn_bind; [eauto with nn|]. intros _.
    destruct (fn_body f (value_ g')); eauto with nn.
  - rewrite bool_decide_eq_false_2 by naive_solver.
    rewrite andb_false_r. eauto with nn.
Qed.

#[local] Hint Resolve nn_release : nn.

Lemma nn_exec o : never_null_call (exec moved_from fn_body o).
Proof.
  destruct o; simpl.
  - unfold unique_resource_ctor. apply nn_bind; [eauto with nn|].
    intros _. case_bool_decide; eauto with nn.
  - unfold unique_resource_move_ctor. nn_steps.
  - unfold operator_assign. case_bool_decide; nn_steps.
  - unfold get. nn_steps.
  - unfold operator_bool. nn_steps.
  - unfold reset. nn_steps.
  - unfold release_ownership. nn_steps.
  - unfold member_swap, swap_value, swap_valid, swap_deleter. nn_steps.
  - unfold swap, member_swap, swap_value, swap_valid, swap_deleter. nn_steps.
  - unfold unique_resource_dtor. nn_steps.
Qed.

(** C9.  In every state of the process that a sequence of constructions,
    move constructions, move assignments, swaps, [reset()]s,
    [release_ownership()]s, accesses and destructions has returned to from
    the start, each live guard (moved-from and reset ones too) stores a
    non-null releaser, and no operation run there calls through a null
    releaser. *)
Theorem deleter_never_null prog w :
  run moved_from fn_body prog start = Returns tt w ->
  deleters_set w /\
  (forall o, exec moved_from fn_body o w <> Undefined null_call).
Proof.
  intros Hrun. split.
  - pose proof (keeps_run prog start deleters_set_start) as Hk.
    by rewrite Hrun in Hk.
  - intros o. apply nn_exec.
Qed.

(** *** The factory *)

(** C5.  The guard the factory builds releases through the function at
    [fn], whose code is fixed and does not see the callable: whatever that
    code is, there is a release callable for which the factory followed by
    destruction does not run as it would with the adapter of that callable
    behind [fn] (one that throws when the code returns, one that returns
    when it does not). *)
Theorem make_unique_resource_not_adapter fn p (res : T) :
  exists deleter : callable,
    (make_unique_resource fn p res deleter ;;;
     unique_resource_dtor fn_body p) start <>
    (make_unique_resource fn p res deleter ;;;
     unique_resource_dtor (with_body fn_body fn (adapter_body deleter)) p)
      start.
Proof.
  destruct (fn_body fn res) as [v'|] eqn:Hfn.
  - exists (fun _ => thrown). unfold_ops. unfold with_body, adapter_body.
    simpl. rewrite lookup_empty. lookups. rewrite Hfn.
    rewrite bool_decide_eq_true_2 by done. lookups. done.
  - exists (fun v => returned v). unfold_ops. unfold with_body, adapter_body.
    simpl. rewrite lookup_empty. lookups. rewrite Hfn.
    rewrite bool_decide_eq_true_2 by done. lookups. done.
Qed.

End Facts.

(** The guard over handle 42 whose releaser is the function at address 1:
    going out of scope makes the one call [(1, 42)]; so does any mix of
    [reset()] and [release_ownership()] beforehand, at most once. *)
Lemma release_at_most_once_witness :
  calls_of (unique_resource_dtor handle_fn_body 1%positive
              (one_guard 42 true (Some 1%positive)))
    = Some [(1%positive, 42%Z)].
Proof.
  apply (release_at_most_once handle_moved_from handle_fn_body
           (one_guard 42 true (Some 1%positive)) 1%positive
           (mk_unique_resource 42%Z true (Some 1%positive)) 1%positive);
    reflexivity.
Defined.

(** A guard over handle 7 moved into a new guard at address 2. *)
Lemma move_ctor_transfers_witness :
  unique_resource_move_ctor handle_moved_from 2%positive 1%positive
    (one_guard 7 true (Some 1%positive)) =
  Returns tt
    (two_guards (mk_unique_resource 7%Z false (Some 1%positive))
                (mk_unique_resource 7%Z true (Some 1%positive))).
Proof.
  exact (proj1 (move_ctor_transfers handle_moved_from handle_fn_body
                  (one_guard 7 true (Some 1%positive)) 2%positive 1%positive
                  (mk_unique_resource 7%Z true (Some 1%positive))
                  eq_refl eq_refl eq_refl)).
Defined.

(** Guard 2 (handle 8, releaser 2) assigned from guard 1 (handle 7): the
    one call is that of releaser 2 on handle 8. *)
Lemma move_assign_releases_first_witness :
  calls_of
    (operator_assign handle_moved_from handle_fn_body 2%positive 1%positive
       (two_guards (mk_unique_resource 7%Z true (Some 1%positive))
                   (mk_unique_resource 8%Z true (Some 2%positive)))) =
  Some [(2%positive, 8%Z)].
Proof.
  refine (proj2 (move_assign_releases_first handle_moved_from handle_fn_body
                   (two_guards (mk_unique_resource 7%Z true (Some 1%positive))
                               (mk_unique_resource 8%Z true (Some 2%positive)))
                   2%positive 1%positive
                   (mk_unique_resource 7%Z true (Some 1%positive))
                   (mk_unique_resource 8%Z true (Some 2%positive))
                   2%positive _ eq_refl eq_refl eq_refl eq_refl)).
  discriminate.
Defined.

(** Construction at address 1 in the starting process, without a
    releaser. *)
Lemma ctor_null_terminates_witness :
  unique_resource_ctor 1%positive 7%Z None start =
  Terminated (one_guard 7 true None).
Proof.
  exact (proj1 (ctor_null_terminates start 1%positive 7%Z eq_refl)).
Defined.

(** Handle 5 taken back from a valid guard. *)
Lemma release_ownership_disarms_witness :
  release_ownership handle_moved_from 1%positive
    (one_guard 5 true (Some 1%positive)) =
  Returns 5%Z (one_guard 5 false (Some 1%positive)).
Proof.
  exact (proj1 (release_ownership_disarms handle_moved_from handle_fn_body
                  (one_guard 5 true (Some 1%positive)) 1%positive
                  (mk_unique_resource 5%Z true (Some 1%positive)) eq_refl)).
Defined.

(** Handle 5 taken back from a guard that was already invalid. *)
Lemma release_ownership_invalid_witness :
  exists w',
    release_ownership handle_moved_from 1%positive
      (one_guard 5 false (Some 1%positive)) = Returns 5%Z w' /\
    calls w' = [] /\
    objs w' !! 1%positive =
      Some (mk_unique_resource 5%Z false (Some 1%positive)) /\
    operator_bool 1%positive w' = Returns false w' /\
    (forall q, q <> 1%positive ->
       objs w' !! q = objs (one_guard 5 false (Some 1%positive)) !! q).
Proof.
  exact (release_ownership_invalid handle_moved_from
           (one_guard 5 false (Some 1%positive)) 1%positive
           (mk_unique_resource 5%Z false (Some 1%positive)) eq_refl eq_refl).
Defined.

(** Two valid guards swapped through the free function. *)
Lemma swap_exchanges_witness :
  swap handle_moved_from 1%positive 2%positive
    (two_guards (mk_unique_resource 7%Z true (Some 1%positive))
                (mk_unique_resource 8%Z true (Some 2%positive))) =
  Returns tt
    (two_guards (mk_unique_resource 8%Z true (Some 2%positive))
                (mk_unique_resource 7%Z true (Some 1%positive))).
Proof.
  exact (proj1 (proj2
           (swap_exchanges handle_moved_from handle_fn_body
              (two_guards (mk_unique_resource 7%Z true (Some 1%positive))
                          (mk_unique_resource 8%Z true (Some 2%positive)))
              1%positive 2%positive
              (mk_unique_resource 7%Z true (Some 1%positive))
              (mk_unique_resource 8%Z true (Some 2%positive))
              eq_refl eq_refl))).
Defined.

(** C7 as stated fails.  Guard 1 is reset, then swapped with the valid
    guard 2: guard 2 is invalid after the swap, and destroying it makes no
    call at all, so it does not release a value exactly once. *)
Lemma swap_destroy_exactly_once_counterexample :
  ~ (forall prog a b (w w' : world Z),
       run handle_moved_from handle_fn_body prog start = Returns tt w ->
       is_Some (objs w !! a) -> is_Some (objs w !! b) ->
       swap handle_moved_from a b w = Returns tt w' ->
       exists c,
         calls_of (unique_resource_dtor handle_fn_body b w') =
           Some (calls w' ++ [c])).
Proof.
  intros Hclaim.
  destruct (Hclaim
              [Construct 1%positive 7%Z (Some 1%positive);
               Construct 2%positive 8%Z (Some 1%positive);
               Reset 1%positive]
              1%positive 2%positive _ _ eq_refl
              (ex_intro _ _ eq_refl) (ex_intro _ _ eq_refl) eq_refl)
    as [c Hc].
  vm_compute in Hc. discriminate Hc.
Qed.

(** A guard is built, moved from, assigned back, reset, swapped and
    emptied: both guards still store releaser 1. *)
Lemma deleter_never_null_witness :
  deleters_set
    (mk_world
       (<[ 2%positive := mk_unique_resource 7%Z false (Some 1%positive) ]>
          {[ 1%positive := mk_unique_resource 7%Z false (Some 1%positive) ]})
       [(1%positive, 7%Z)]) /\
  (forall o,
     exec handle_moved_from handle_fn_body o
       (mk_world
          (<[ 2%positive := mk_unique_resource 7%Z false (Some 1%positive) ]>
             {[ 1%positive := mk_unique_resource 7%Z false (Some 1%positive) ]})
          [(1%positive, 7%Z)]) <> Undefined null_call).
Proof.
  apply (deleter_never_null handle_moved_from handle_fn_body
           [Construct 1%positive 7%Z (Some 1%positive);
            MoveConstruct 2%positive 1%positive;
            MoveAssign 1%positive 2%positive;
            Reset 1%positive;
            Swap 1%positive 2%positive;
            ReleaseOwnership 2%positive]).
  vm_compute. reflexivity.
Defined.

(** ** The release log in three small programs *)

(** A guard over handle 42 goes out of scope: one entry, for 42. *)
Example scope_exit_releases_once :
  calls_of
    (run handle_moved_from handle_fn_body
       [Construct 1%positive 42%Z (Some 1%positive); Destroy 1%positive]
       start) = Some [(1%positive, 42%Z)].
Proof. vm_compute. reflexivity. Qed.

(** Guard A over handle 7 is moved into guard B, then A and B are
    destroyed: one entry for 7, made when B is destroyed. *)
Example moved_from_guard_is_silent :
  calls_of
    (run handle_moved_from handle_fn_body
       [Construct 1%positive 7%Z (Some 1%positive);
        MoveConstruct 2%positive 1%positive;
        Destroy 1%positive] start) = Some [] /\
  calls_of
    (run handle_moved_from handle_fn_body
       [Construct 1%positive 7%Z (Some 1%positive);
        MoveConstruct 2%positive 1%positive;
        Destroy 1%positive;
        Destroy 2%positive] start) = Some [(1%positive, 7%Z)].
Proof. split; vm_compute; reflexivity. Qed.

(** [reset()] twice on a guard over handle 1: one entry. *)
Example reset_twice_releases_once :
  calls_of
    (run handle_moved_from handle_fn_body
       [Construct 1%positive 1%Z (Some 1%positive);
        Reset 1%positive; Reset 1%positive] start) = Some [(1%positive, 1%Z)].
Proof. vm_compute. reflexivity. Qed.

(** ** More on moves, swaps and accounting *)

Section Composition.

Context {T : Type}.
Variable moved_from : T -> T.
Variable fn_body : fnaddr -> T -> option T.

Implicit Types (w : world T) (g : unique_resource T) (p q r : addr).
Implicit Types (m : gmap addr (unique_resource T)) (prog : list (op (T:=T))).

(** *** Counting owners *)

Lemma valid_count_empty : valid_count (T:=T) ∅ = 0.
Proof. unfold valid_count. by rewrite map_filter_empty, map_size_empty. Qed.

Lemma owns_filter m p :
  owns (m !! p) =
  match filter (fun kv => valid_ kv.2 = true) m !! p with
  | Some _ => 1
  | None => 0
  end.
Proof.
  unfold owns. destruct (m !! p) as [g|] eqn:Hp.
  - destruct (valid_ g) eqn:Hv.
    + by rewrite (map_lookup_filter_Some_2 _ m p g).
    + rewrite (proj2 (map_lookup_filter_None _ m p)); [done|].
      right. intros g' Hg'. simpl. congruence.
  - rewrite (proj2 (map_lookup_filter_None _ m p)); [done|]. by left.
Qed.

Lemma valid_count_delete m p :
  valid_count (delete p m) + owns (m !! p) = valid_count m.
Proof.
  unfold valid_count. rewrite map_filter_delete, map_size_delete, owns_filter.
  destruct (filter _ m !! p) eqn:Hf; simpl; [|lia].
  assert (size (filter (fun kv => valid_ kv.2 = true) m) <> 0); [|lia].
  intros Hz. apply map_size_empty_inv in Hz. by rewrite Hz, lookup_empty in Hf.
Qed.

Lemma valid_count_insert m p g :
  valid_count (<[p := g]> m) + owns (m !! p) = valid_count m + owns (Some g).
Proof.
  pose proof (valid_count_delete (<[p := g]> m) p) as H1.
  pose proof (valid_count_delete m p) as H2.
  rewrite delete_insert_eq in H1. rewrite lookup_insert_eq in H1. lia.
Qed.

Lemma valid_count_insert2 m p q a b :
  p <> q ->
  valid_count (<[q := b]> (<[p := a]> m)) + owns (m !! p) + owns (m !! q) =
  valid_count m + owns (Some a) + owns (Some b).
Proof.
  intros Hne.
  pose proof (valid_count_insert (<[p := a]> m) q b) as H1.
  pose proof (valid_count_insert m p a) as H2.
  rewrite lookup_insert_ne in H1 by done. lia.
Qed.

(** *** What each operation does to the process *)

Lemma ctor_eq w p (res : T) f :
  objs w !! p = None ->
  unique_resource_ctor p res (Some f) w =
    Returns tt
      (mk_world (<[p := mk_unique_resource res true (Some f)]> (objs w))
                (calls w)).
Proof. intros Hp. unfold_ops. by lookups. Qed.

Lemma release_eq w p g :
  objs w !! p = Some g ->
  release fn_body p w =
    match due g with
    | Some R =>
        match fn_body R (value_ g) with
        | Some v' =>
            Returns tt
              (mk_world (<[p := mk_unique_resource v' false (Some R)]> (objs w))
                        (calls w ++ [(R, value_ g)]))
        | None => Terminated (mk_world (objs w) (calls w ++ [(R, value_ g)]))
        end
    | None => Returns tt w
    end.
Proof.
  intros Hp. unfold due. destruct (valid_ g) eqn:Hv.
  - destruct (deleter_ g) as [R|] eqn:Hd.
    + by apply (release_valid fn_body w p g R).
    + unfold_ops. lookups. done.
  - by apply (release_invalid fn_body w p g).
Qed.

Lemma dtor_eq w p g :
  objs w !! p = Some g ->
  unique_resource_dtor fn_body p w =
    match due g with
    | Some R =>
        match fn_body R (value_ g) with
        | Some _ =>
            Returns tt
              (mk_world (delete p (objs w)) (calls w ++ [(R, value_ g)]))
        | None => Terminated (mk_world (objs w) (calls w ++ [(R, value_ g)]))
        end
    | None => Returns tt (mk_world (delete p (objs w)) (calls w))
    end.
Proof.
  intros Hp. unfold due. destruct (valid_ g) eqn:Hv.
  - destruct (deleter_ g) as [R|] eqn:Hd.
    + by apply (dtor_valid fn_body w p g R).
    + unfold_ops. lookups. done.
  - by apply (dtor_invalid fn_body w p g).
Qed.

Lemma move_ctor_eq w p q g :
  objs w !! q = Some g -> objs w !! p = None ->
  unique_resource_move_ctor moved_from p q w =
    Returns tt
      (mk_world
         (<[p := mk_unique_resource (value_ g) (valid_ g) (deleter_ g)]>
            (<[q := mk_unique_resource (moved_from (value_ g)) false (deleter_ g)]>
               (objs w)))
         (calls w)).
Proof.
  intros Hq Hp. assert (p <> q) by congruence.
  unfold_ops. lookups. same_world.
Qed.

(** The state of source and destination once the destination has absorbed
    the source. *)
Lemma move_assign_eq w p q gp gq :
  p <> q -> objs w !! p = Some gp -> objs w !! q = Some gq ->
  operator_assign moved_from fn_body p q w =
    match due gp with
    | Some R =>
        match fn_body R (value_ gp) with
        | Some _ =>
            Returns tt
              (mk_world
                 (<[q := mk_unique_resource (moved_from (value_ gq)) false (deleter_ gq)]>
                    (<[p := mk_unique_resource (value_ gq) (valid_ gq) (deleter_ gq)]>
                       (objs w)))
                 (calls w ++ [(R, value_ gp)]))
        | None => Terminated (mk_world (objs w) (calls w ++ [(R, value_ gp)]))
        end
    | None =>
        Returns tt
          (mk_world
             (<[q := mk_unique_resource (moved_from (value_ gq)) false (deleter_ gq)]>
                (<[p := mk_unique_resource (value_ gq) (valid_ gq) (deleter_ gq)]>
                   (objs w)))
             (calls w))
    end.
Proof.
  intros Hne Hp Hq. unfold due. unfold_ops.
  rewrite bool_decide_eq_true_2 by done. lookups.
  destruct (valid_ gp) eqn:Hv; [destruct (deleter_ gp) as [R|] eqn:Hd|].
  - lookups. destruct (fn_body R (value_ gp)); lookups; [|done]. same_world.
  - lookups. same_world.
  - lookups. same_world.
Qed.

(** *** No release without a construction, no owner lost *)

(** On a guard that stores a releaser, a releaser is due exactly when the
    guard owns. *)
Lemma owns_due g :
  owns (Some g) = match due g with Some _ => 1 | None => 0 end \/
  (valid_ g = true /\ deleter_ g = None).
Proof.
  unfold owns, due. destruct (valid_ g); [|by left].
  destruct (deleter_ g); [by left | by right].
Qed.

Lemma due_owns g R : due g = Some R -> owns (Some g) = 1.
Proof. unfold due, owns. by destruct (valid_ g). Qed.

Lemma due_none_owns w p g :
  deleters_set w -> objs w !! p = Some g -> due g = None -> owns (Some g) = 0.
Proof.
  intros Hw Hp Hdue. destruct (owns_due g) as [-> | [_ Hd]].
  - by rewrite Hdue.
  - by apply Hw in Hp.
Qed.

Lemma due_none_le g : due g = None -> owns (Some g) <= 1.
Proof. intros _. unfold owns. destruct (valid_ g); lia. Qed.

(** One operation: the resources accounted for grow by at most the one a
    constructor brings in, and by exactly that unless the operation is
    [release_ownership]; when the run ends in [std::terminate()] the calls
    made are still covered. *)
Lemma exec_accounting o w :
  match exec moved_from fn_body o w with
  | Returns _ w' =>
      accounted w' <= accounted w + (if is_construct o then 1 else 0) /\
      (deleters_set w -> is_release_ownership o = false ->
       accounted w' = accounted w + (if is_construct o then 1 else 0))
  | Terminated w' =>
      length (calls w') <= accounted w + (if is_construct o then 1 else 0)
  | Undefined _ => True
  end.
Proof.
  destruct o as [p res d|p q|p q|p|p|p|p|p q|p q|p]; simpl.
  - (* constructor *)
    destruct (objs w !! p) as [g|] eqn:Hp; [by unfold_ops; lookups|].
    destruct d as [f|].
    + rewrite ctor_eq by done. unfold accounted. simpl.
      pose proof (valid_count_insert (objs w) p
                    (mk_unique_resource res true (Some f))) as Hc.
      rewrite Hp in Hc. simpl in Hc. lia.
    + unfold_ops. lookups. unfold accounted. lia.
  - (* move constructor *)
    destruct (objs w !! q) as [g|] eqn:Hq; [|by unfold_ops; lookups].
    destruct (objs w !! p) as [g'|] eqn:Hp.
    { destruct (decide (p = q)) as [->|Hne]; unfold_ops; by lookups. }
    rewrite (move_ctor_eq w p q g) by done. unfold accounted. simpl.
    assert (q <> p) as Hne by congruence.
    pose proof (valid_count_insert2 (objs w) q p
                  (mk_unique_resource (moved_from (value_ g)) false (deleter_ g))
                  (mk_unique_resource (value_ g) (valid_ g) (deleter_ g)) Hne)
      as Hc.
    rewrite Hp, Hq in Hc. simpl in Hc. lia.
  - (* move assignment *)
    destruct (decide (p = q)) as [->|Hne].
    { unfold operator_assign. rewrite bool_decide_eq_false_2 by naive_solver.
      simpl. lia. }
    destruct (objs w !! p) as [gp|] eqn:Hp;
      [|by unfold_ops; rewrite bool_decide_eq_true_2 by done; lookups].
    destruct (objs w !! q) as [gq|] eqn:Hq.
    2:{ pose proof (release_eq w p gp Hp) as Hr. unfold operator_assign.
        rewrite bool_decide_eq_true_2 by done. unfold bind at 1. rewrite Hr.
        destruct (due gp) as [R|] eqn:Hdue.
        - destruct (fn_body R (value_ gp)).
          + unfold_ops. by lookups.
          + simpl. rewrite length_app. simpl.
            pose proof (valid_count_delete (objs w) p) as Hc.
            rewrite Hp in Hc. pose proof (due_owns gp R Hdue) as Ho. simpl in Ho, Hc. unfold accounted. lia.
        - unfold_ops. by lookups. }
    rewrite (move_assign_eq w p q gp gq) by done.
    pose proof (valid_count_insert2 (objs w) p q
                  (mk_unique_resource (value_ gq) (valid_ gq) (deleter_ gq))
                  (mk_unique_resource (moved_from (value_ gq)) false (deleter_ gq))
                  Hne) as Hc.
    rewrite Hp, Hq in Hc. simpl in Hc.
    destruct (due gp) as [R|] eqn:Hdue.
    + pose proof (due_owns gp R Hdue) as Ho. simpl in Ho, Hc.
      destruct (fn_body R (value_ gp)); unfold accounted; simpl;
        rewrite length_app; simpl; lia.
    + pose proof (due_none_le gp Hdue) as Hle. simpl in Hle, Hc. unfold accounted. simpl.
      split; [lia|]. intros Hw _.
      pose proof (due_none_owns w p gp Hw Hp Hdue) as Ho. simpl in Ho, Hc. lia.
  - (* get *)
    destruct (objs w !! p) as [g|] eqn:Hp; unfold_ops; lookups; [lia|done].
  - (* operator bool *)
    destruct (objs w !! p) as [g|] eqn:Hp; unfold_ops; lookups; [lia|done].
  - (* reset *)
    destruct (objs w !! p) as [g|] eqn:Hp; [|by unfold_ops; lookups].
    unfold reset. rewrite (release_eq w p g Hp).
    destruct (due g) as [R|] eqn:Hdue; [|lia].
    pose proof (due_owns g R Hdue) as Ho.
    destruct (fn_body R (value_ g)) as [v'|]; unfold accounted; simpl;
      rewrite length_app; simpl.
    + pose proof (valid_count_insert (objs w) p
                    (mk_unique_resource v' false (Some R))) as Hc.
      rewrite Hp in Hc. simpl in Ho, Hc. lia.
    + pose proof (valid_count_delete (objs w) p) as Hc.
      rewrite Hp in Hc. simpl in Ho, Hc. lia.
  - (* release_ownership *)
    destruct (objs w !! p) as [g|] eqn:Hp; [|by unfold_ops; lookups].
    unfold bind. rewrite (release_ownership_eq moved_from w p g Hp).
    unfold accounted. simpl.
    pose proof (valid_count_insert (objs w) p
                  (mk_unique_resource (moved_from (value_ g)) false (deleter_ g)))
      as Hc.
    rewrite Hp in Hc. simpl in Hc. split; [lia | done].
  - (* member swap *)
    destruct (objs w !! p) as [gp|] eqn:Hp; [|by unfold_ops; lookups].
    destruct (objs w !! q) as [gq|] eqn:Hq.
    2:{ assert (p <> q) by congruence. unfold_ops. by lookups. }
    rewrite (member_swap_eq moved_from w p q gp gq) by done.
    unfold accounted. simpl. destruct (decide (p = q)) as [->|Hne].
    + rewrite insert_insert_eq.
      pose proof (valid_count_insert (objs w) q gp) as Hc.
      rewrite Hp in Hc. lia.
    + pose proof (valid_count_insert2 (objs w) p q gq gp Hne) as Hc.
      rewrite Hp, Hq in Hc. lia.
  - (* free swap *)
    unfold swap.
    destruct (objs w !! p) as [gp|] eqn:Hp; [|by unfold_ops; lookups].
    destruct (objs w !! q) as [gq|] eqn:Hq.
    2:{ assert (p <> q) by congruence. unfold_ops. by lookups. }
    rewrite (member_swap_eq moved_from w p q gp gq) by done.
    unfold accounted. simpl. destruct (decide (p = q)) as [->|Hne].
    + rewrite insert_insert_eq.
      pose proof (valid_count_insert (objs w) q gp) as Hc.
      rewrite Hp in Hc. lia.
    + pose proof (valid_count_insert2 (objs w) p q gq gp Hne) as Hc.
      rewrite Hp, Hq in Hc. lia.
  - (* destructor *)
    destruct (objs w !! p) as [g|] eqn:Hp; [|by unfold_ops; lookups].
    rewrite (dtor_eq w p g Hp).
    pose proof (valid_count_delete (objs w) p) as Hc. rewrite Hp in Hc.
    destruct (due g) as [R|] eqn:Hdue.
    + pose proof (due_owns g R Hdue) as Ho. simpl in Ho, Hc.
      destruct (fn_body R (value_ g)); unfold accounted; simpl;
        rewrite length_app; simpl; lia.
    + pose proof (due_none_le g Hdue) as Hle. simpl in Hle, Hc. unfold accounted. simpl.
      split; [lia|]. intros Hw _.
      pose proof (due_none_owns w p g Hw Hp Hdue) as Ho. simpl in Ho, Hc. lia.
Qed.

Lemma constructions_cons o prog :
  constructions (o :: prog) =
  (if is_construct o then 1 else 0) + constructions prog.
Proof. unfold constructions. simpl. by destruct (is_construct o). Qed.

Lemma run_accounting prog :
  forall w,
    match run moved_from fn_body prog w with
    | Returns _ w' =>
        accounted w' <= accounted w + constructions prog /\
        (deleters_set w ->
         forallb (fun o => negb (is_release_ownership o)) prog = true ->
         accounted w' = accounted w + constructions prog)
    | Terminated w' => length (calls w') <= accounted w + constructions prog
    | Undefined _ => True
    end.
Proof.
  induction prog as [|o prog IH]; intros w.
  - simpl. unfold constructions. simpl. lia.
  - rewrite constructions_cons. simpl. unfold bind.
    pose proof (exec_accounting o w) as Ho.
    pose proof (keeps_exec moved_from fn_body o w) as Hk.
    destruct (exec moved_from fn_body o w) as [[] w1|w1|]; [|lia|done].
    specialize (IH w1). destruct Ho as [Hle Heq].
    destruct (run moved_from fn_body prog w1) as [[] w2|w2|]; [|lia|done].
    destruct IH as [Hle2 Heq2]. split; [lia|].
    intros Hw Hall. apply andb_true_iff in Hall as [Hnot Hall].
    apply negb_true_iff in Hnot.
    rewrite (Heq2 (Hk Hw) Hall), (Heq Hw Hnot). lia.
Qed.

Lemma accounted_start : accounted (start (T:=T)) = 0.
Proof. unfold accounted, start. simpl. by rewrite valid_count_empty. Qed.

(** X1.  No release without a construction: however a program of guard
    operations run from the start ends, the release calls made so far,
    together with the guards that still own a resource, never outnumber the
    constructor calls of the program. *)
Theorem releases_bounded_by_constructions prog :
  match run moved_from fn_body prog start with
  | Returns _ w =>
      valid_count (objs w) + length (calls w) <= constructions prog
  | Terminated w => length (calls w) <= constructions prog
  | Undefined _ => True
  end.
Proof.
  pose proof (run_accounting prog start) as H. rewrite accounted_start in H.
  destruct (run moved_from fn_body prog start); [|done..].
  destruct H as [H _]. exact H.
Qed.

(** X2.  No resource is lost: when a program that never calls
    [release_ownership] has run from the start and returned, each
    constructed resource has been released by exactly one call or is owned
    by exactly one live guard. *)
Theorem every_resource_released_or_owned prog w :
  run moved_from fn_body prog start = Returns tt w ->
  forallb (fun o => negb (is_release_ownership o)) prog = true ->
  valid_count (objs w) + length (calls w) = constructions prog.
Proof.
  intros Hrun Hall. pose proof (run_accounting prog start) as H.
  rewrite Hrun, accounted_start in H. destruct H as [_ H].
  by apply H; [apply deleters_set_start|].
Qed.

(** *** Other guards are left alone *)

Lemma frames_ret {A} r (a : A) : frames r (ret (T:=T) a).
Proof. by intros w. Qed.

Lemma frames_terminate {A} r : frames r (terminate (T:=T) (A:=A)).
Proof. by intros w. Qed.

Lemma frames_bind {A B} r (m : M T A) (k : A -> M T B) :
  frames r m -> (forall a, frames r (k a)) -> frames r (bind m k).
Proof.
  intros Hm Hk w. unfold bind. specialize (Hm w).
  destruct (m w) as [a w1|w1|]; [|done..].
  specialize (Hk a w1). destruct (k a w1); [congruence..|done].
Qed.

Lemma frames_load r p : frames r (load (T:=T) p).
Proof. intros w. unfold load. by destruct (objs w !! p). Qed.

Lemma frames_store r p g : p <> r -> frames r (store p g).
Proof.
  intros Hne w. unfold store. destruct (objs w !! p); [|done].
  simpl. by rewrite lookup_insert_ne.
Qed.

Lemma frames_emplace r p g : p <> r -> frames r (emplace p g).
Proof.
  intros Hne w. unfold emplace. destruct (objs w !! p); [done|].
  simpl. by rewrite lookup_insert_ne.
Qed.

Lemma frames_end_lifetime r p : p <> r -> frames r (end_lifetime (T:=T) p).
Proof. intros Hne w. simpl. by rewrite lookup_delete_ne. Qed.

Lemma frames_record_call r f (v : T) : frames r (record_call f v).
Proof. by intros w. Qed.

Create HintDb frames discriminated.
#[local] Hint Resolve frames_ret frames_terminate frames_load frames_store
  frames_emplace frames_end_lifetime frames_record_call : frames.

Ltac frames_steps :=
  repeat first [ solve [eauto with frames] | apply frames_bind; [|intros ?] ].

Lemma frames_set_value r p (v : T) : p <> r -> frames r (set_value p v).
Proof. intros Hne. unfold set_value. frames_steps. Qed.

Lemma frames_set_valid r p b : p <> r -> frames r (set_valid (T:=T) p b).
Proof. intros Hne. unfold set_valid. frames_steps. Qed.

Lemma frames_set_deleter r p d : p <> r -> frames r (set_deleter (T:=T) p d).
Proof. intros Hne. unfold set_deleter. frames_steps. Qed.

#[local] Hint Resolve frames_set_value frames_set_valid frames_set_deleter
  : frames.

Lemma frames_move_value r p : p <> r -> frames r (move_value moved_from p).
Proof. intros Hne. unfold move_value. frames_steps. Qed.

Lemma frames_exchange_valid r p b :
  p <> r -> frames r (exchange_valid (T:=T) p b).
Proof. intros Hne. unfold exchange_valid. frames_steps. Qed.

#[local] Hint Resolve frames_move_value frames_exchange_valid : frames.

Lemma frames_release r p : p <> r -> frames r (release fn_body p).
Proof.
  intros Hne. unfold release. apply frames_bind; [eauto with frames|].
  intros g. destruct (valid_ g && _); [|eauto with frames].
  apply frames_bind; [|eauto with frames].
  destruct (deleter_ g) as [f|]; simpl; [|by intros w].
  apply frames_bind; [eauto with frames|]. intros g'.
  apply frames_bind; [eauto with frames|]. intros _.
  destruct (fn_body f (value_ g')); eauto with frames.
Qed.

#[local] Hint Resolve frames_release : frames.

(** X3.  An operation changes only the guards it is called on: every other
    object, live or not, is the same after it, whether the operation
    returns or ends in [std::terminate()]. *)
Theorem other_guards_untouched o r w :
  r ∉ touches o ->
  match exec moved_from fn_body o w with
  | Returns _ w' | Terminated w' => objs w' !! r = objs w !! r
  | Undefined _ => True
  end.
Proof.
  intros Hr. revert w. change (frames r (exec moved_from fn_body o)).
  destruct o; simpl in *;
    repeat match goal with
    | H : _ ∉ _ :: _ |- _ => apply not_elem_of_cons in H as [? H]
    end;
    unfold unique_resource_ctor, unique_resource_move_ctor, operator_assign,
      get, operator_bool, reset, release_ownership, swap, member_swap,
      swap_value, swap_valid, swap_deleter, unique_resource_dtor;
    repeat case_bool_decide; frames_steps.
Qed.

(** *** Swapping twice, and either way round *)

Lemma world_eta w : mk_world (objs w) (calls w) = w.
Proof. by destruct w. Qed.

(** X4.  Swapping two live guards twice gives back the process as it was:
    each guard has its original value, validity and releaser again, and
    nothing was called.  A guard swapped with itself is unchanged the same
    way. *)
Theorem swap_twice_restores w a b :
  is_Some (objs w !! a) -> is_Some (objs w !! b) ->
  (member_swap moved_from a b ;;; member_swap moved_from a b) w = Returns tt w /\
  (swap moved_from a b ;;; swap moved_from a b) w = Returns tt w /\
  member_swap moved_from a a w = Returns tt w.
Proof.
  intros [ga Ha] [gb Hb].
  assert ((member_swap moved_from a b ;;; member_swap moved_from a b) w
          = Returns tt w) as Htwice.
  { unfold bind. rewrite (member_swap_eq moved_from w a b ga gb) by done.
    rewrite (member_swap_eq moved_from _ a b gb ga).
    - rewrite <- (world_eta w) at 5. simpl. same_world.
    - simpl. destruct (decide (a = b)) as [->|Hne].
      + rewrite lookup_insert_eq. congruence.
      + rewrite lookup_insert_ne by done. by rewrite lookup_insert_eq.
    - simpl. by rewrite lookup_insert_eq. }
  split; [done|]. split; [done|].
  rewrite (member_swap_eq moved_from w a a ga ga) by done.
  rewrite <- (world_eta w) at 3. same_world.
Qed.

(** X5.  [swap] does not depend on which guard it is called on:
    [a.swap(b)], [b.swap(a)], [swap(a, b)] and [swap(b, a)] end alike in
    every state of the process, also when a guard is outside its
    lifetime. *)
Theorem swap_symmetric w a b :
  member_swap moved_from a b w = member_swap moved_from b a w /\
  swap moved_from a b w = swap moved_from b a w /\
  swap moved_from a b w = member_swap moved_from a b w.
Proof.
  assert (member_swap moved_from a b w = member_swap moved_from b a w) as Hsym.
  { destruct (decide (a = b)) as [->|Hne]; [done|].
    destruct (objs w !! a) as [ga|] eqn:Ha, (objs w !! b) as [gb|] eqn:Hb.
    - rewrite (member_swap_eq moved_from w a b ga gb) by done.
      rewrite (member_swap_eq moved_from w b a gb ga) by done.
      same_world.
    - unfold_ops. by lookups.
    - unfold_ops. by lookups.
    - unfold_ops. by lookups. }
  done.
Qed.

(** *** Handing a resource on *)

(** X6.  A guard moved out into a new guard and move-assigned back is as
    it was before (value, validity and releaser), the intermediate guard
    is left invalid, and no releaser is called on the way. *)
Theorem move_out_and_back w p q g :
  objs w !! p = Some g -> objs w !! q = None ->
  (unique_resource_move_ctor moved_from q p ;;;
   operator_assign moved_from fn_body p q) w =
  Returns tt
    (mk_world
       (<[q := mk_unique_resource (moved_from (value_ g)) false (deleter_ g)]>
          (objs w))
       (calls w)).
Proof.
  intros Hp Hq. assert (p <> q) as Hne by congruence.
  unfold bind. rewrite (move_ctor_eq w q p g) by done.
  rewrite (move_assign_eq _ p q
             (mk_unique_resource (moved_from (value_ g)) false (deleter_ g))
             (mk_unique_resource (value_ g) (valid_ g) (deleter_ g)));
    [|done|simpl; by lookups|simpl; by lookups].
  simpl. destruct g as [v b d]. simpl. same_world.
Qed.

(** X7.  A value taken out with [release_ownership()] and given to a new
    guard: no releaser is called by the hand-over, the old guard is
    invalid, and the new guard is valid, holds the value and the releaser
    it was built with. *)
Theorem release_ownership_then_construct w p q g f :
  objs w !! p = Some g -> objs w !! q = None ->
  (v <- release_ownership moved_from p ;; unique_resource_ctor q v (Some f)) w =
  Returns tt
    (mk_world
       (<[q := mk_unique_resource (value_ g) true (Some f)]>
          (<[p := mk_unique_resource (moved_from (value_ g)) false (deleter_ g)]>
             (objs w)))
       (calls w)).
Proof.
  intros Hp Hq. assert (p <> q) as Hne by congruence.
  unfold bind. rewrite (release_ownership_eq moved_from w p g Hp).
  rewrite ctor_eq; [done|]. simpl. by rewrite lookup_insert_ne.
Qed.

(** X8.  A guard built on free storage and destroyed right away: the one
    call is that of its releaser on the value it was built with; if the
    releaser returns the objects of the process are as before, and if it
    does not the run ends there. *)
Theorem construct_then_destroy w p (res : T) f :
  objs w !! p = None ->
  (unique_resource_ctor p res (Some f) ;;; unique_resource_dtor fn_body p) w =
  match fn_body f res with
  | Some _ => Returns tt (mk_world (objs w) (calls w ++ [(f, res)]))
  | None =>
      Terminated
        (mk_world (<[p := mk_unique_resource res true (Some f)]> (objs w))
                  (calls w ++ [(f, res)]))
  end.
Proof.
  intros Hp. unfold bind. rewrite ctor_eq by done.
  rewrite (dtor_eq _ p (mk_unique_resource res true (Some f)));
    [|simpl; by rewrite lookup_insert_eq].
  simpl. destruct (fn_body f res); [|done]. same_world.
Qed.

(** *** Invalid guards as source and destination *)

(** X9.  Move-assigning to an invalid guard calls nothing; the destination
    takes over the source's value, validity and releaser, so that it owns
    again exactly when the source owned, and the source is left invalid. *)
Theorem move_assign_rearms w p q gp gq :
  p <> q -> objs w !! p = Some gp -> objs w !! q = Some gq ->
  valid_ gp = false ->
  let w' :=
    mk_world
      (<[q := mk_unique_resource (moved_from (value_ gq)) false (deleter_ gq)]>
         (<[p := mk_unique_resource (value_ gq) (valid_ gq) (deleter_ gq)]>
            (objs w)))
      (calls w) in
  operator_assign moved_from fn_body p q w = Returns tt w' /\
  operator_bool p w' = Returns (valid_ gq) w' /\
  operator_bool q w' = Returns false w' /\
  unique_resource_dtor fn_body p w' =
    match due gq with
    | Some R =>
        match fn_body R (value_ gq) with
        | Some _ =>
            Returns tt
              (mk_world (delete p (objs w')) (calls w ++ [(R, value_ gq)]))
        | None => Terminated (mk_world (objs w') (calls w ++ [(R, value_ gq)]))
        end
    | None => Returns tt (mk_world (delete p (objs w')) (calls w))
    end.
Proof.
  intros Hne Hp Hq Hv w'.
  assert (objs w' !! p =
          Some (mk_unique_resource (value_ gq) (valid_ gq) (deleter_ gq)))
    as Hp' by (subst w'; by lookups).
  assert (objs w' !! q =
          Some (mk_unique_resource (moved_from (value_ gq)) false (deleter_ gq)))
    as Hq' by (subst w'; by lookups).
  split; [|split; [|split]].
  - rewrite (move_assign_eq w p q gp gq) by done. unfold due. by rewrite Hv.
  - unfold_ops. by rewrite Hp'.
  - unfold_ops. by rewrite Hq'.
  - by rewrite (dtor_eq w' p _ Hp').
Qed.

(** X10.  Moving from an invalid guard makes no owner: the new guard is
    invalid too, and destroying the new guard or the source calls
    nothing. *)
Theorem move_ctor_from_invalid w p q g :
  objs w !! q = Some g -> valid_ g = false -> objs w !! p = None ->
  exists w',
    unique_resource_move_ctor moved_from p q w = Returns tt w' /\
    operator_bool p w' = Returns false w' /\
    operator_bool q w' = Returns false w' /\
    calls w' = calls w /\
    calls_of (unique_resource_dtor fn_body p w') = Some (calls w) /\
    calls_of (unique_resource_dtor fn_body q w') = Some (calls w).
Proof.
  intros Hq Hv Hp. assert (p <> q) as Hne by congruence.
  eexists. split; [by apply (move_ctor_eq w p q g)|].
  set (w' := mk_world _ _).
  assert (objs w' !! p = Some (mk_unique_resource (value_ g) false (deleter_ g)))
    as Hp' by (subst w'; rewrite <- Hv; by lookups).
  assert (objs w' !! q =
          Some (mk_unique_resource (moved_from (value_ g)) false (deleter_ g)))
    as Hq' by (subst w'; by lookups).
  split; [unfold_ops; by rewrite Hp'|].
  split; [unfold_ops; by rewrite Hq'|].
  split; [done|]. split.
  - by rewrite (dtor_invalid fn_body w' p _ Hp').
  - by rewrite (dtor_invalid fn_body w' q _ Hq').
Qed.

(** *** Access after release *)

(** X11.  After a [reset()] whose releaser returned, [get()] still
    returns: it yields the value as the releaser left it through the
    reference, [operator bool] yields [false], and neither changes the
    process. *)
Theorem get_after_reset w p g R v' :
  objs w !! p = Some g -> valid_ g = true -> deleter_ g = Some R ->
  fn_body R (value_ g) = Some v' ->
  exists w',
    reset fn_body p w = Returns tt w' /\
    get p w' = Returns v' w' /\
    operator_bool p w' = Returns false w' /\
    calls w' = calls w ++ [(R, value_ g)].
Proof.
  intros Hp Hv Hd Hfn. eexists. unfold reset.
  rewrite (release_valid fn_body w p g R) by done. rewrite Hfn.
  split; [done|]. unfold_ops. simpl. rewrite lookup_insert_eq. done.
Qed.

End Composition.

(** Two guards are built, the second is move-assigned into the first and
    then destroyed: two constructions, one release (of handle 7) and one
    owner (of handle 8). *)
Lemma every_resource_released_or_owned_witness :
  valid_count
    (objs (mk_world {[ 1%positive := mk_unique_resource 8%Z true (Some 2%positive) ]}
                    [(1%positive, 7%Z)])) +
  length (calls (mk_world
                   {[ 1%positive := mk_unique_resource 8%Z true (Some 2%positive) ]}
                   [(1%positive, 7%Z)])) =
  constructions
    [Construct 1%positive 7%Z (Some 1%positive);
     Construct 2%positive 8%Z (Some 2%positive);
     MoveAssign 1%positive 2%positive;
     Destroy 2%positive].
Proof.
  apply (every_resource_released_or_owned handle_moved_from handle_fn_body);
    vm_compute; reflexivity.
Defined.

(** [reset()] on guard 1 leaves guard 2 alone. *)
Lemma other_guards_untouched_witness :
  match
    exec handle_moved_from handle_fn_body (Reset 1%positive)
      (two_guards (mk_unique_resource 7%Z true (Some 1%positive))
                  (mk_unique_resource 8%Z true (Some 2%positive)))
  with
  | Returns _ w' | Terminated w' =>
      objs w' !! 2%positive =
      Some (mk_unique_resource 8%Z true (Some 2%positive))
  | Undefined _ => True
  end.
Proof.
  refine (other_guards_untouched handle_moved_from handle_fn_body
            (Reset 1%positive) 2%positive
            (two_guards (mk_unique_resource 7%Z true (Some 1%positive))
                        (mk_unique_resource 8%Z true (Some 2%positive))) _).
  simpl. apply not_elem_of_cons. split; [discriminate | apply not_elem_of_nil].
Defined.

(** Two guards swapped twice. *)
Lemma swap_twice_restores_witness :
  (member_swap handle_moved_from 1%positive 2%positive ;;;
   member_swap handle_moved_from 1%positive 2%positive)
    (two_guards (mk_unique_resource 7%Z true (Some 1%positive))
                (mk_unique_resource 8%Z false (Some 2%positive))) =
  Returns tt
    (two_guards (mk_unique_resource 7%Z true (Some 1%positive))
                (mk_unique_resource 8%Z false (Some 2%positive))).
Proof.
  exact (proj1 (swap_twice_restores handle_moved_from
                  (two_guards (mk_unique_resource 7%Z true (Some 1%positive))
                              (mk_unique_resource 8%Z false (Some 2%positive)))
                  1%positive 2%positive
                  (ex_intro _ _ eq_refl) (ex_intro _ _ eq_refl))).
Defined.

(** Guard 1 over handle 7 moved out to address 2 and back. *)
Lemma move_out_and_back_witness :
  (unique_resource_move_ctor handle_moved_from 2%positive 1%positive ;;;
   operator_assign handle_moved_from handle_fn_body 1%positive 2%positive)
    (one_guard 7 true (Some 1%positive)) =
  Returns tt
    (two_guards (mk_unique_resource 7%Z true (Some 1%positive))
                (mk_unique_resource 7%Z false (Some 1%positive))).
Proof.
  exact (move_out_and_back handle_moved_from handle_fn_body
           (one_guard 7 true (Some 1%positive)) 1%positive 2%positive
           (mk_unique_resource 7%Z true (Some 1%positive)) eq_refl eq_refl).
Defined.

(** Handle 7 taken out of guard 1 and given to a new guard at address 2
    with releaser 2. *)
Lemma release_ownership_then_construct_witness :
  (v <- release_ownership handle_moved_from 1%positive ;;
   unique_resource_ctor 2%positive v (Some 2%positive))
    (one_guard 7 true (Some 1%positive)) =
  Returns tt
    (two_guards (mk_unique_resource 7%Z false (Some 1%positive))
                (mk_unique_resource 7%Z true (Some 2%positive))).
Proof.
  exact (release_ownership_then_construct handle_moved_from
           (one_guard 7 true (Some 1%positive)) 1%positive 2%positive
           (mk_unique_resource 7%Z true (Some 1%positive)) 2%positive
           eq_refl eq_refl).
Defined.

(** A guard over handle 42 built and destroyed in the starting process. *)
Lemma construct_then_destroy_witness :
  (unique_resource_ctor 1%positive 42%Z (Some 1%positive) ;;;
   unique_resource_dtor handle_fn_body 1%positive) start =
  Returns tt (mk_world ∅ [(1%positive, 42%Z)]).
Proof.
  exact (construct_then_destroy handle_fn_body start 1%positive 42%Z
           1%positive eq_refl).
Defined.

(** The invalid guard 1 is assigned from the valid guard 2 and owns
    handle 8 afterwards. *)
Lemma move_assign_rearms_witness :
  operator_assign handle_moved_from handle_fn_body 1%positive 2%positive
    (two_guards (mk_unique_resource 7%Z false (Some 1%positive))
                (mk_unique_resource 8%Z true (Some 2%positive))) =
  Returns tt
    (two_guards (mk_unique_resource 8%Z true (Some 2%positive))
                (mk_unique_resource 8%Z false (Some 2%positive))).
Proof.
  refine (proj1 (move_assign_rearms handle_moved_from handle_fn_body
                   (two_guards (mk_unique_resource 7%Z false (Some 1%positive))
                               (mk_unique_resource 8%Z true (Some 2%positive)))
                   1%positive 2%positive
                   (mk_unique_resource 7%Z false (Some 1%positive))
                   (mk_unique_resource 8%Z true (Some 2%positive))
                   _ eq_refl eq_refl eq_refl)).
  discriminate.
Defined.

(** A guard moved from the invalid guard 1. *)
Lemma move_ctor_from_invalid_witness :
  exists w',
    unique_resource_move_ctor handle_moved_from 2%positive 1%positive
      (one_guard 7 false (Some 1%positive)) = Returns tt w' /\
    operator_bool 2%positive w' = Returns false w' /\
    operator_bool 1%positive w' = Returns false w' /\
    calls w' = [] /\
    calls_of (unique_resource_dtor handle_fn_body 2%positive w') = Some [] /\
    calls_of (unique_resource_dtor handle_fn_body 1%positive w') = Some [].
Proof.
  exact (move_ctor_from_invalid handle_moved_from handle_fn_body
           (one_guard 7 false (Some 1%positive)) 2%positive 1%positive
           (mk_unique_resource 7%Z false (Some 1%positive))
           eq_refl eq_refl eq_refl).
Defined.

(** The releaser at address 2 overwrites handle 5 with -1; [get()] after
    [reset()] yields -1. *)
Lemma get_after_reset_witness :
  exists w',
    reset handle_fn_body 1%positive (one_guard 5 true (Some 2%positive)) =
      Returns tt w' /\
    get 1%positive w' = Returns (-1)%Z w' /\
    operator_bool 1%positive w' = Returns false w' /\
    calls w' = [(2%positive, 5%Z)].
Proof.
  exact (get_after_reset handle_fn_body
           (one_guard 5 true (Some 2%positive)) 1%positive
           (mk_unique_resource 5%Z true (Some 2%positive)) 2%positive (-1)%Z
           eq_refl eq_refl eq_refl eq_refl).
Defined.

End safe.
